(** * CLibEdit: the C shim over libedit's readline-compatible API

    The repository is [Sources/CLibEdit/libedit_shim.c] (with a second copy,
    [Sources/CLibEdit/include/libedit_shim.c], and the header
    [include/libedit_shim.h]).  Every exported function forwards to libedit;
    the only state the shim owns is the static [s_generator].

    The shim is embedded as state-passing code over one [world]: the shim's
    static, the part of libedit's state its calls read and write, and the
    process environment (terminal, stdout, files).  libedit itself is not
    part of the repository; module [LibEdit] below models the calls the shim
    makes after their readline-compatible contract. *)

From Stdlib Require Import ZArith Ascii String List Lia.
From stdpp Require Import base option list strings gmap.

Local Open Scope string_scope.
Local Open Scope list_scope.

(** ** C data *)

(** A [char *]: the null pointer, or a pointer to a NUL-terminated string
    (the bytes before the terminator). *)
Inductive cptr : Type :=
| NULL
| Ptr (s : string).

Definition NUL : ascii := Ascii.zero.
Definition BEL : ascii := Ascii.ascii_of_nat 7.   (* '\a' *)
Definition LF : ascii := Ascii.ascii_of_nat 10.   (* '\n' *)

(** [typedef char *( *le_generator_t)(const char *text, int state);] *)
Definition le_generator_t : Type := cptr -> Z -> cptr.

(** The one function of this program whose address is ever stored in
    libedit's [rl_attempted_completion_function]. *)
Inductive rl_completion_func_t : Type :=
| fn_attempted_completion.

(** A file of the process environment. *)
Record file : Type := File {
  f_readable : bool;
  f_writable : bool;
  f_data : string
}.

(** [stdio]'s end-of-file / error result. *)
Definition EOF : Z := (-1)%Z.
Definition ENOENT : Z := 2%Z.
Definition EACCES : Z := 13%Z.

(** ** The world *)

Record world : Type := World {
  (* libedit_shim.c: [static le_generator_t s_generator = NULL;] *)
  s_generator : option le_generator_t;
  (* libedit globals *)
  rl_attempted_completion_function : option rl_completion_func_t;
  rl_initialized : bool;
  history : list string;                (* oldest entry first *)
  rl_line_buffer : string;
  (* process environment *)
  tty_in : list (option string);        (* per prompt: a submitted line, or end of input *)
  term_out : string;                    (* bytes written to the terminal *)
  stdout_err : bool;                    (* stdout is closed or in error *)
  fs : gmap string file;
  (* trace of the calls made to the host's generator *)
  gen_calls : list (cptr * Z)
}.

Definition set_s_generator (g : option le_generator_t) (w : world) : world :=
  World g (rl_attempted_completion_function w) (rl_initialized w) (history w)
        (rl_line_buffer w) (tty_in w) (term_out w) (stdout_err w) (fs w) (gen_calls w).

Definition set_rl_attempted_completion_function
    (f : option rl_completion_func_t) (w : world) : world :=
  World (s_generator w) f (rl_initialized w) (history w)
        (rl_line_buffer w) (tty_in w) (term_out w) (stdout_err w) (fs w) (gen_calls w).

Definition set_rl_initialized (b : bool) (w : world) : world :=
  World (s_generator w) (rl_attempted_completion_function w) b (history w)
        (rl_line_buffer w) (tty_in w) (term_out w) (stdout_err w) (fs w) (gen_calls w).

Definition set_history (h : list string) (w : world) : world :=
  World (s_generator w) (rl_attempted_completion_function w) (rl_initialized w) h
        (rl_line_buffer w) (tty_in w) (term_out w) (stdout_err w) (fs w) (gen_calls w).

Definition set_rl_line_buffer (b : string) (w : world) : world :=
  World (s_generator w) (rl_attempted_completion_function w) (rl_initialized w) (history w)
        b (tty_in w) (term_out w) (stdout_err w) (fs w) (gen_calls w).

Definition set_tty_in (i : list (option string)) (w : world) : world :=
  World (s_generator w) (rl_attempted_completion_function w) (rl_initialized w) (history w)
        (rl_line_buffer w) i (term_out w) (stdout_err w) (fs w) (gen_calls w).

Definition set_term_out (o : string) (w : world) : world :=
  World (s_generator w) (rl_attempted_completion_function w) (rl_initialized w) (history w)
        (rl_line_buffer w) (tty_in w) o (stdout_err w) (fs w) (gen_calls w).

Definition set_fs (m : gmap string file) (w : world) : world :=
  World (s_generator w) (rl_attempted_completion_function w) (rl_initialized w) (history w)
        (rl_line_buffer w) (tty_in w) (term_out w) (stdout_err w) m (gen_calls w).

Definition set_gen_calls (l : list (cptr * Z)) (w : world) : world :=
  World (s_generator w) (rl_attempted_completion_function w) (rl_initialized w) (history w)
        (rl_line_buffer w) (tty_in w) (term_out w) (stdout_err w) (fs w) l.

(** The world at program start: nothing registered, nothing initialised. *)
Definition world0 : world :=
  World None None false [] EmptyString [] EmptyString false ∅ [].

(** ** The computation monad

    A C call either returns a value in a new world, or the process dies
    (a null dereference), or the modelled loop runs out of fuel. *)
Inductive outcome (A : Type) : Type :=
| Done (a : A) (w : world)
| Crash
| OutOfFuel.
Arguments Done {A} a w.
Arguments Crash {A}.
Arguments OutOfFuel {A}.

Definition M (A : Type) : Type := world -> outcome A.

Definition ret {A} (a : A) : M A := fun w => Done a w.

Definition bind {A B} (m : M A) (k : A -> M B) : M B :=
  fun w => match m w with
           | Done a w' => k a w'
           | Crash => Crash
           | OutOfFuel => OutOfFuel
           end.

Definition modify (f : world -> world) : M unit := fun w => Done tt (f w).

Declare Scope c_scope.
Delimit Scope c_scope with C.
Notation "x <- m ;; k" := (bind m (fun x => k))
  (at level 100, m at next level, right associativity) : c_scope.
Notation "m ;; k" := (bind m (fun _ => k))
  (at level 100, right associativity) : c_scope.
Local Open Scope c_scope.

(** [*p]: reading through the null pointer kills the process. *)
Definition deref (p : cptr) : M ascii :=
  match p with
  | NULL => fun _ => Crash
  | Ptr EmptyString => ret NUL
  | Ptr (String c _) => ret c
  end.

(** C's [a && b]: [b] is evaluated only when [a] is true. *)
Definition c_and (a : bool) (b : M bool) : M bool :=
  if a then b else ret false.

Definition nonnull (p : cptr) : bool :=
  match p with NULL => false | Ptr _ => true end.

Definition nonzero (c : ascii) : bool :=
  negb (Ascii.eqb c NUL).

(** A Rocq string is a C string when no byte of it is the terminator. *)
Fixpoint cstring (s : string) : bool :=
  match s with
  | EmptyString => true
  | String c s' => nonzero c && cstring s'
  end.

(** ** libedit and libc, as the shim uses them

    These are the library's functions, outside the repository.  Each is
    modelled after its readline-compatible contract: [add_history] places the
    string at the end of the history list, [read_history] adds the lines of a
    file to it and [write_history] overwrites the file with it, both returning
    0 or an [errno], [readline] returns the line typed or NULL at end of
    input, and [rl_completion_matches] drives the entry function.

    The model is partial where the shim's behaviour does not depend on the
    rest: of the failures of the history files only a missing file and a
    missing permission are modelled (libedit also rejects a file that is not
    in its own format, and a path under a missing directory); of the match
    list only whether it is NULL is relied on (libedit may reorder the
    matches and choose another first entry); and [readline] is the call as
    it returns, a line or end of input: the keys typed on the way, the
    completion key among them, are not modelled, and an interrupt is
    modelled apart, in [le_readline_with]. *)
Module LibEdit.

(** [rl_initialize] sets the library up afresh: the history it held is
    discarded. *)
Definition rl_initialize : M Z :=
  fun w => Done 0%Z (set_history [] (set_rl_initialized true w)).

(** Every entry point initialises the library on first use. *)
Definition ensure_initialized : M unit :=
  modify (set_rl_initialized true).

Definition write_prompt (prompt : cptr) : M unit :=
  match prompt with
  | NULL => ret tt
  | Ptr p => modify (fun w => set_term_out (term_out w +:+ p) w)
  end.

(** [readline] as it returns: the prompt is written, and the next entry of
    [tty_in] is the line submitted or the end of input. *)
Definition readline (prompt : cptr) : M cptr :=
  ensure_initialized ;;
  write_prompt prompt ;;
  fun w => match tty_in w with
           | Some l :: rest => Done (Ptr l) (set_rl_line_buffer l (set_tty_in rest w))
           | None :: rest => Done NULL (set_tty_in rest w)
           | [] => Done NULL w
           end.

(** [add_history(NULL)] copies through the null pointer. *)
Definition add_history (line : cptr) : M Z :=
  ensure_initialized ;;
  s <- (match line with
        | NULL => fun _ => Crash
        | Ptr s => ret s
        end) ;;
  modify (fun w => set_history (history w ++ [s]) w) ;;
  ret 0%Z.

Definition clear_history : M unit :=
  ensure_initialized ;;
  modify (set_history []).

(** Modelled from the spec: the history file format ("plain text, one entry
    per line, newline-terminated, oldest entry first"); the library's reader
    and writer are not in the repository. *)
Fixpoint history_lines (hs : list string) : string :=
  match hs with
  | [] => EmptyString
  | h :: hs' => h +:+ String LF (history_lines hs')
  end.

(** Modelled from the spec: reading the history file format back, a line at
    a time; [cur] is the line read so far. *)
Fixpoint read_lines (cur : string) (data : string) : list string :=
  match data with
  | EmptyString => match cur with EmptyString => [] | _ => [cur] end
  | String c data' =>
      if Ascii.eqb c LF then cur :: read_lines EmptyString data'
      else read_lines (cur +:+ String c EmptyString) data'
  end.

Definition default_history_file : string := "~/.history".

(** A NULL file name stands for the default history file. *)
Definition file_name (path : cptr) : string :=
  match path with
  | NULL => default_history_file
  | Ptr p => p
  end.

(** Failures modelled: the file is missing, or may not be read. *)
Definition read_history (path : cptr) : M Z :=
  ensure_initialized ;;
  fun w => match fs w !! file_name path with
           | None => Done ENOENT w
           | Some f =>
               if f_readable f
               then Done 0%Z (set_history (history w ++ read_lines EmptyString (f_data f)) w)
               else Done EACCES w
           end.

(** Failure modelled: the file exists and may not be written. *)
Definition write_history (path : cptr) : M Z :=
  ensure_initialized ;;
  fun w => let p := file_name path in
           let data := history_lines (history w) in
           match fs w !! p with
           | None => Done 0%Z (set_fs (<[p := File true true data]> (fs w)) w)
           | Some f =>
               if f_writable f
               then Done 0%Z (set_fs (<[p := File (f_readable f) true data]> (fs w)) w)
               else Done EACCES w
           end.

Fixpoint common_prefix2 (a b : string) : string :=
  match a, b with
  | String x a', String y b' =>
      if Ascii.eqb x y then String x (common_prefix2 a' b') else EmptyString
  | _, _ => EmptyString
  end.

Definition common_prefix (m : string) (ms : list string) : string :=
  fold_left common_prefix2 ms m.

(** Modelled from the spec: the loop of libedit's [rl_completion_matches],
    which is not in the repository.  The generator is "called repeatedly with
    increasing callIndex starting at 0 until it returns None"; the shim's own
    comment (libedit_shim.c, line 79) says the same: "will call
    le_generator_trampoline with state = 0,1,2,...".  [acc] holds the matches
    so far, first match first. *)
Fixpoint collect_matches (fuel : nat) (text : cptr)
    (entry_func : cptr -> Z -> M cptr) (state : Z) (acc : list string)
    : M (list string) :=
  match fuel with
  | O => fun _ => OutOfFuel
  | S fuel' =>
      r <- entry_func text state ;;
      match r with
      | NULL => ret acc
      | Ptr m => collect_matches fuel' text entry_func (state + 1)%Z (acc ++ [m])
      end
  end.

(** [char **rl_completion_matches(text, entry_func)]: NULL when there is no
    match, otherwise the common prefix followed by the matches.  Only the
    calls made and whether the result is NULL are relied on; the order of
    the matches and the choice of the first entry are libedit's. *)
Definition rl_completion_matches (fuel : nat) (text : cptr)
    (entry_func : cptr -> Z -> M cptr) : M (option (list string)) :=
  ms <- collect_matches fuel text entry_func 0%Z [] ;;
  match ms with
  | [] => ret None
  | m :: ms' => ret (Some (common_prefix m ms' :: m :: ms'))
  end.

End LibEdit.

Module Libc.

(** [fputc(c, stdout)]: the byte written, or [EOF] (a stream in error
    reports it at the write). *)
Definition fputc (c : ascii) : M Z :=
  fun w => if stdout_err w then Done EOF w
           else Done (Z.of_nat (nat_of_ascii c))
                     (set_term_out (term_out w +:+ String c EmptyString) w).

(** [fflush(stdout)]: 0, or [EOF]. *)
Definition fflush : M Z :=
  fun w => if stdout_err w then Done EOF w else Done 0%Z w.

End Libc.

(** ** The host's generator

    Calling through an [le_generator_t] runs the host's function; the call is
    recorded in [gen_calls]. *)
Definition call_generator (g : le_generator_t) (text : cptr) (state : Z) : M cptr :=
  modify (fun w => set_gen_calls (gen_calls w ++ [(text, state)]) w) ;;
  ret (g text state).

(** ** Sources/CLibEdit/libedit_shim.c *)
Module Shim.

Definition le_readline (prompt : cptr) : M cptr :=
  LibEdit.readline prompt.

(** [if (line && *line) add_history(line);] *)
Definition le_add_history (line : cptr) : M unit :=
  b <- c_and (nonnull line) (c <- deref line ;; ret (nonzero c)) ;;
  if b then (LibEdit.add_history line ;; ret tt) else ret tt.

Definition le_read_history (path : cptr) : M Z :=
  LibEdit.read_history path.

Definition le_write_history (path : cptr) : M Z :=
  LibEdit.write_history path.

Definition le_clear_history : M unit :=
  LibEdit.clear_history.

Definition le_initialize : M unit :=
  LibEdit.rl_initialize ;; ret tt.

(** [#ifdef rl_ding]: [rl_ding] is [Some] macro body when the header
    defines it as a macro, otherwise the fallback is compiled. *)
Definition le_ding (rl_ding : option (M Z)) : M Z :=
  match rl_ding with
  | Some rl_ding_macro => rl_ding_macro
  | None =>
      Libc.fputc BEL ;;
      Libc.fflush ;;
      ret 0%Z
  end.

Definition le_generator_trampoline (text : cptr) (state : Z) : M cptr :=
  fun w => match s_generator w with
           | None => Done NULL w
           | Some g => call_generator g text state w
           end.

Definition attempted_completion (fuel : nat) (text : cptr) (start end_ : Z)
    : M (option (list string)) :=
  fun w => match s_generator w with
           | None => Done None w
           | Some _ => LibEdit.rl_completion_matches fuel text le_generator_trampoline w
           end.

Definition le_set_completion (generator : option le_generator_t) : M unit :=
  modify (set_s_generator generator) ;;
  modify (set_rl_attempted_completion_function (Some fn_attempted_completion)).

End Shim.

(** ** Sources/CLibEdit/include/libedit_shim.c *)
Module IncludeShim.

Definition le_readline (prompt : cptr) : M cptr :=
  LibEdit.readline prompt.

Definition le_add_history (line : cptr) : M unit :=
  b <- c_and (nonnull line) (c <- deref line ;; ret (nonzero c)) ;;
  if b then (LibEdit.add_history line ;; ret tt) else ret tt.

Definition le_read_history (path : cptr) : M Z :=
  LibEdit.read_history path.

Definition le_write_history (path : cptr) : M Z :=
  LibEdit.write_history path.

Definition le_clear_history : M unit :=
  LibEdit.clear_history.

Definition le_initialize : M unit :=
  LibEdit.rl_initialize ;; ret tt.

Definition le_generator_trampoline (text : cptr) (state : Z) : M cptr :=
  fun w => match s_generator w with
           | None => Done NULL w
           | Some g => call_generator g text state w
           end.

Definition attempted_completion (fuel : nat) (text : cptr) (start end_ : Z)
    : M (option (list string)) :=
  fun w => match s_generator w with
           | None => Done None w
           | Some _ => LibEdit.rl_completion_matches fuel text le_generator_trampoline w
           end.

Definition le_set_completion (generator : option le_generator_t) : M unit :=
  modify (set_s_generator generator) ;;
  modify (set_rl_attempted_completion_function (Some fn_attempted_completion)).

End IncludeShim.


(** ** Programs over the shim's interface

    What a host and libedit can do with the shim: call an exported function,
    or (libedit, on the completion key) call through
    [rl_attempted_completion_function]. *)

(** libedit calling the registered completion function; with none
    registered it has no match list from the shim. *)
Definition call_completion_hook (fuel : nat) (text : cptr) (start end_ : Z)
    : M (option (list string)) :=
  fun w => match rl_attempted_completion_function w with
           | None => Done None w
           | Some fn_attempted_completion =>
               Shim.attempted_completion fuel text start end_ w
           end.

Inductive api_call : Type :=
| call_readline (prompt : cptr)
| call_add_history (line : cptr)
| call_read_history (path : cptr)
| call_write_history (path : cptr)
| call_clear_history
| call_initialize
| call_ding
| call_set_completion (generator : option le_generator_t)
| key_complete (fuel : nat) (text : cptr) (start end_ : Z).

Definition exec (c : api_call) : M unit :=
  match c with
  | call_readline prompt => Shim.le_readline prompt ;; ret tt
  | call_add_history line => Shim.le_add_history line
  | call_read_history path => Shim.le_read_history path ;; ret tt
  | call_write_history path => Shim.le_write_history path ;; ret tt
  | call_clear_history => Shim.le_clear_history
  | call_initialize => Shim.le_initialize
  | call_ding => Shim.le_ding None ;; ret tt
  | call_set_completion generator => Shim.le_set_completion generator
  | key_complete fuel text start end_ =>
      call_completion_hook fuel text start end_ ;; ret tt
  end.

Fixpoint run (cs : list api_call) : M unit :=
  match cs with
  | [] => ret tt
  | c :: cs' => exec c ;; run cs'
  end.

(** The generator of the most recent [le_set_completion] among [cs], or [g0]
    when [cs] registers none. *)
Fixpoint registered (cs : list api_call) (g0 : option le_generator_t)
    : option le_generator_t :=
  match cs with
  | [] => g0
  | call_set_completion g :: cs' => registered cs' g
  | _ :: cs' => registered cs' g0
  end.

(** ** Vocabulary of the properties *)

(** The caller's reading of [le_readline]'s result. *)
Inductive line_result : Type :=
| Submitted (line : string)
| EndOfInput.

Definition decode_result (r : cptr) : line_result :=
  match r with
  | Ptr l => Submitted l
  | NULL => EndOfInput
  end.

(** What the terminal holds for the next prompt. *)
Definition next_input (w : world) : line_result :=
  match tty_in w with
  | Some l :: _ => Submitted l
  | _ => EndOfInput
  end.

(** A return value that could report cancellation: different from the
    end-of-input result and from every submitted string. *)
Definition interrupted_marker (eof_result m : cptr) : Prop :=
  m <> eof_result /\ forall l, m <> Ptr l.

(** The history, as [le_add_history] would leave it if it dropped a line
    equal to the most recent entry. *)
Definition append_dedup (s : string) (h : list string) : list string :=
  if decide (s = EmptyString \/ last h = Some s) then h else h ++ [s].

Fixpoint newline_free (s : string) : bool :=
  match s with
  | EmptyString => true
  | String c s' => negb (Ascii.eqb c LF) && newline_free s'
  end.

(** The file can be saved to and loaded back: absent (it will be created),
    or present with read and write permission. *)
Definition absent_or_rw (o : option file) : bool :=
  match o with
  | None => true
  | Some f => f_readable f && f_writable f
  end.

(** Whenever a generator is in the slot, libedit's hook points at the shim's
    [attempted_completion]. *)
Definition hook_installed (w : world) : bool :=
  match s_generator w, rl_attempted_completion_function w with
  | Some _, None => false
  | _, _ => true
  end.

(** The bell was rung between [w] and [w']: a BEL byte reached the terminal. *)
Definition bell_rung (w w' : world) : Prop :=
  term_out w' = term_out w +:+ String BEL EmptyString.

(** The strings behind the non-null pointers of a list. *)
Definition strings_of (ps : list cptr) : list string :=
  omap (fun p => match p with Ptr s => Some s | NULL => None end) ps.

(** The calls [text, 0], [text, 1], ..., [text, n - 1]. *)
Definition calls_upto (text : cptr) (n : nat) : list (cptr * Z) :=
  map (fun i => (text, Z.of_nat i)) (seq 0 n).

(** ** Example hosts *)

(** The start world of a process whose stdout is closed. *)
Definition world_stdout_closed : world :=
  World None None false [] EmptyString [] EmptyString true ∅ [].

(** A generator with no candidate at all. *)
Definition gen_none : le_generator_t := fun _ _ => NULL.

(** A generator with three candidates, then NULL. *)
Definition gen_three : le_generator_t :=
  fun _ state =>
    match state with
    | 0%Z => Ptr "cat"
    | 1%Z => Ptr "car"
    | 2%Z => Ptr "cap"
    | _ => NULL
    end.

Definition gen_old : le_generator_t := fun _ _ => Ptr "old".

(** A host that registers a generator, adds a line, registers another
    generator, and then has libedit attempt a completion. *)
Definition session_two_registrations : list api_call :=
  [call_set_completion (Some gen_old);
   call_add_history (Ptr "ls");
   call_set_completion (Some gen_three);
   key_complete 5 (Ptr "ca") 0 2].

(** ** The user at the prompt

    [tty_in] holds what [readline] returns with.  What the user can do at a
    prompt is one more thing: press the interrupt key. *)
Inductive user_action : Type :=
| types_line (line : string)       (* a line, then Enter *)
| ends_input                       (* end of input on an empty line *)
| interrupts.                      (* the interrupt key: SIGINT *)

(** A call seen from the caller: the value and world it returns with, or
    nothing when it does not return. *)
Definition returned {A} (o : outcome A) : option (A * world) :=
  match o with
  | Done a w => Some (a, w)
  | Crash => None
  | OutOfFuel => None
  end.

(** One call of [le_readline] while the user does [a].  The shim installs no
    signal handler and forwards to [readline] at once (libedit_shim.c, lines
    21-23); on SIGINT libedit restores the terminal and lets the signal take
    its course, which ends the process inside the call: [le_readline] does
    not return. *)
Definition le_readline_with (a : user_action) (prompt : cptr) (w : world)
    : option (cptr * world) :=
  match a with
  | types_line l =>
      returned (Shim.le_readline prompt (set_tty_in (Some l :: tty_in w) w))
  | ends_input =>
      returned (Shim.le_readline prompt (set_tty_in (None :: tty_in w) w))
  | interrupts => None
  end.

(** The three outcomes as the spec has them: the string on submit, an EOF
    marker on end of input, and an interrupted marker on cancellation that
    differs from the EOF marker and from every string. *)
Definition reports_three_outcomes (prompt : cptr) (w : world) : Prop :=
  exists eof_marker int_marker,
    (forall l, exists w',
       le_readline_with (types_line l) prompt w = Some (Ptr l, w')) /\
    (exists w', le_readline_with ends_input prompt w = Some (eof_marker, w')) /\
    (exists w', le_readline_with interrupts prompt w = Some (int_marker, w')) /\
    interrupted_marker eof_marker int_marker.

(** ** The completion key

    Where libedit's completion key takes its matches from: it asks the
    registered hook first; when the hook answers NULL it runs its default
    (filename) completion, unless [rl_attempted_completion_over] was set,
    which nothing in the shim does.  What the default completion then does to
    the line and the terminal is libedit's and is not modelled. *)
Inductive completion_path : Type :=
| HookMatches (matches : list string)
| DefaultCompletion.

Definition completion_key (fuel : nat) (text : cptr) (start end_ : Z)
    : M completion_path :=
  r <- call_completion_hook fuel text start end_ ;;
  ret (match r with
       | Some ms => HookMatches ms
       | None => DefaultCompletion
       end).

(** ** Vocabulary of the further properties *)

(** The string [le_add_history] hands to libedit: the line, when the pointer
    is not null and its first byte is not the terminator. *)
Definition kept_line (p : cptr) : option string :=
  match p with
  | Ptr (String c s) => if nonzero c then Some (String c s) else None
  | _ => None
  end.

(** The calls that have no part in completion: they neither register a
    generator, nor attempt a completion, nor read a line (while reading,
    libedit answers the completion key). *)
Definition plain_call (c : api_call) : bool :=
  match c with
  | call_set_completion _ => false
  | key_complete _ _ _ _ => false
  | call_readline _ => false
  | _ => true
  end.

(** The host's read loop body: [line = le_readline(prompt);
    le_add_history(line);], returning the line. *)
Definition read_and_remember (prompt : cptr) : M cptr :=
  line <- Shim.le_readline prompt ;;
  Shim.le_add_history line ;;
  ret line.

(** * Properties *)

(** ** Stepping the monad *)

Ltac unfold_shim :=
  unfold Shim.le_readline, Shim.le_add_history, Shim.le_read_history,
    Shim.le_write_history, Shim.le_clear_history, Shim.le_initialize,
    Shim.le_ding, Shim.le_set_completion,
    LibEdit.readline, LibEdit.add_history, LibEdit.read_history,
    LibEdit.write_history, LibEdit.clear_history, LibEdit.rl_initialize,
    LibEdit.ensure_initialized, LibEdit.write_prompt,
    Libc.fputc, Libc.fflush, c_and, deref.

Ltac step_c := unfold bind, ret, modify; simpl.

Lemma nonzero_head (c : ascii) (s : string) :
  cstring (String c s) = true -> nonzero c = true.
Proof. simpl. intros H. apply andb_prop in H. tauto. Qed.

(** ** History append *)

(** C9: [le_add_history(NULL)] is a safe no-op: the guard [line && *line]
    stops at the null test, nothing is read through the pointer (the call
    returns instead of crashing), and the world, the history with it, is
    unchanged. *)
Theorem le_add_history_null_noop (w : world) :
  Shim.le_add_history NULL w = Done tt w.
Proof. reflexivity. Qed.

(** What the guard protects from: libedit's [add_history] on the null
    pointer. *)
Example add_history_null_crashes (w : world) :
  LibEdit.add_history NULL w = Crash.
Proof. reflexivity. Qed.

(** C1, as stated, fails: a line equal to the most recent entry is appended
    again.  With history ["ls"], [le_add_history("ls")] does not leave the
    history that a de-duplicating append would. *)
Lemma le_add_history_repeats_last_entry :
  ~ exists w',
      Shim.le_add_history (Ptr "ls") (set_history ["ls"] world0) = Done tt w' /\
      history w' = append_dedup "ls" (history (set_history ["ls"] world0)).
Proof.
  intros (w' & Hrun & Hh).
  vm_compute in Hrun. injection Hrun as <-.
  vm_compute in Hh. discriminate Hh.
Qed.

(** C1, amended: [le_add_history] is a no-op when the line is empty, and
    otherwise appends the line as exactly one new entry (the history grows by
    exactly 1), also when the line equals the most recent entry. *)
Theorem le_add_history_appends (s : string) (w : world) :
  cstring s = true ->
  exists w',
    Shim.le_add_history (Ptr s) w = Done tt w' /\
    (s = EmptyString -> w' = w) /\
    (s <> EmptyString ->
       history w' = history w ++ [s] /\
       length (history w') = S (length (history w))).
Proof.
  intros Hs. destruct s as [|c s].
  - exists w. split; [reflexivity|]. split; [reflexivity|]. intros H. congruence.
  - apply nonzero_head in Hs.
    eexists. split.
    + unfold_shim. step_c. rewrite Hs. reflexivity.
    + split; [discriminate|]. intros _. simpl. split; [reflexivity|].
      rewrite length_app. simpl. lia.
Qed.

Lemma le_add_history_appends_witness :
  exists w',
    Shim.le_add_history (Ptr "ls") (set_history ["ls"] world0) = Done tt w' /\
    ("ls" = EmptyString -> w' = set_history ["ls"] world0) /\
    ("ls" <> EmptyString ->
       history w' = history (set_history ["ls"] world0) ++ ["ls"] /\
       length (history w') = S (length (history (set_history ["ls"] world0)))).
Proof. apply (le_add_history_appends "ls" (set_history ["ls"] world0)). reflexivity. Defined.

(** ** Reading a line *)

Lemma cptr_cases (p : cptr) : p = NULL \/ exists l, p = Ptr l.
Proof. destruct p as [|l]; [left; reflexivity | right; exists l; reflexivity]. Qed.

(** The return type leaves no room for a third marker: at end of input
    [le_readline] returns NULL, and every other value is a string. *)
Lemma le_readline_no_interrupted_marker :
  ~ exists r w' m,
      Shim.le_readline (Ptr "> ") (set_tty_in [None] world0) = Done r w' /\
      interrupted_marker r m.
Proof.
  intros (r & w' & m & Hrun & Hne & Hstr).
  vm_compute in Hrun. injection Hrun as <- _.
  destruct (cptr_cases m) as [-> | [l ->]].
  - apply Hne. reflexivity.
  - apply (Hstr l). reflexivity.
Qed.

(** What [le_readline] returns with, read off the terminal input. *)
Lemma le_readline_result (prompt : cptr) (w : world) :
  exists r w',
    Shim.le_readline prompt w = Done r w' /\
    decode_result r = next_input w /\
    tty_in w' = tail (tty_in w).
Proof.
  unfold next_input. unfold_shim. step_c.
  destruct prompt as [|p]; simpl;
    destruct (tty_in w) as [|[l|] rest] eqn:Hin; simpl; rewrite ?Hin;
    eexists; eexists; (split; [reflexivity|]); simpl; auto.
Qed.



(** ** Loading and saving the history *)

(** C3, as stated, fails: loading a file that does not exist is reported as
    an error, not as success with an empty history. *)
Lemma le_read_history_missing_file_fails :
  ~ exists w',
      Shim.le_read_history (Ptr "no-such-file") world0 = Done 0%Z w'.
Proof.
  intros (w' & Hrun). vm_compute in Hrun. discriminate Hrun.
Qed.

(** C3, amended: [le_read_history] and [le_write_history] never terminate
    the process; each returns libedit's result to the caller as it is.
    Loading a file that is missing or cannot be read reports a non-zero
    error result and leaves the history unchanged (a missing file is an
    error, not an empty history); saving to an existing file that cannot be
    written reports a non-zero error result and leaves the files
    unchanged. *)
Theorem le_history_io_reports (path : cptr) (w : world) :
  Shim.le_read_history path w = LibEdit.read_history path w /\
  Shim.le_write_history path w = LibEdit.write_history path w /\
  (exists rc w',
     Shim.le_read_history path w = Done rc w' /\
     match fs w !! LibEdit.file_name path with
     | None => rc <> 0%Z /\ history w' = history w
     | Some f =>
         if f_readable f then True
         else rc <> 0%Z /\ history w' = history w
     end) /\
  (exists rc w',
     Shim.le_write_history path w = Done rc w' /\
     match fs w !! LibEdit.file_name path with
     | None => True
     | Some f =>
         if f_writable f then True
         else rc <> 0%Z /\ fs w' = fs w
     end).
Proof.
  split; [reflexivity|]. split; [reflexivity|].
  split; unfold_shim; step_c.
  - destruct (fs w !! LibEdit.file_name path) as [f|] eqn:Hf.
    + destruct (f_readable f) eqn:Hr; eexists; eexists;
        (split; [reflexivity|]); simpl; [exact I|].
      split; [discriminate | reflexivity].
    + eexists; eexists. split; [reflexivity|]. split; [discriminate | reflexivity].
  - destruct (fs w !! LibEdit.file_name path) as [f|] eqn:Hf.
    + destruct (f_writable f) eqn:Hr; eexists; eexists;
        (split; [reflexivity|]); simpl; [exact I|].
      split; [discriminate | reflexivity].
    + eexists; eexists. split; [reflexivity | exact I].
Qed.

(** ** The bell *)

(** C8: in the fallback build (no [rl_ding] macro) [le_ding] returns 0 on
    every call, whether or not the bell byte could be written: with stdout in
    error nothing reaches the terminal and the result is 0 all the same. *)
Theorem le_ding_fallback_returns_0 (w : world) :
  Shim.le_ding None w =
    Done 0%Z (if stdout_err w then w
              else set_term_out (term_out w +:+ String BEL EmptyString) w).
Proof.
  unfold_shim. step_c. destruct (stdout_err w) eqn:He; simpl; rewrite He; reflexivity.
Qed.

(** With stdout closed the write fails, and the fallback still answers 0. *)
Example le_ding_closed_stdout :
  Libc.fputc BEL world_stdout_closed =
    Done EOF world_stdout_closed /\
  Shim.le_ding None world_stdout_closed =
    Done 0%Z world_stdout_closed.
Proof. split; reflexivity. Qed.

(** ** Save, then load *)

Lemma append_cons (c : ascii) (s t : string) :
  String c s +:+ t = String c (s +:+ t).
Proof. reflexivity. Qed.

Lemma append_empty_r (s : string) : s +:+ EmptyString = s.
Proof.
  induction s as [|c s IH]; [reflexivity|].
  rewrite append_cons, IH. reflexivity.
Qed.

Lemma append_snoc (cur : string) (c : ascii) (e : string) :
  (cur +:+ String c EmptyString) +:+ e = cur +:+ String c e.
Proof.
  induction cur as [|d cur IH]; [reflexivity|].
  rewrite !append_cons, IH. reflexivity.
Qed.

(** One newline-free entry and its terminator are read back as one line. *)
Lemma read_lines_entry (e : string) :
  newline_free e = true ->
  forall cur rest,
    LibEdit.read_lines cur (e +:+ String LF rest) =
    (cur +:+ e) :: LibEdit.read_lines EmptyString rest.
Proof.
  induction e as [|c e IH]; intros Hnl cur rest.
  - change (EmptyString +:+ String LF rest) with (String LF rest). simpl.
    rewrite append_empty_r. reflexivity.
  - simpl in Hnl. apply andb_prop in Hnl as [Hc He].
    apply negb_true_iff in Hc.
    rewrite append_cons. simpl. rewrite Hc.
    rewrite (IH He). rewrite append_snoc. reflexivity.
Qed.

Lemma read_lines_history_lines (hs : list string) :
  forallb newline_free hs = true ->
  LibEdit.read_lines EmptyString (LibEdit.history_lines hs) = hs.
Proof.
  induction hs as [|h hs IH]; intros Hall; simpl; [reflexivity|].
  simpl in Hall. apply andb_prop in Hall as [Hh Hhs].
  rewrite (read_lines_entry h Hh). simpl. rewrite (IH Hhs). reflexivity.
Qed.

(** C4: when no entry contains a newline, saving the history to a file and
    loading that file into a fresh store (empty history, same files) gives
    back the same entries in the same order, oldest first. *)
Theorem history_save_load_roundtrip (path : cptr) (w : world) :
  forallb newline_free (history w) = true ->
  absent_or_rw (fs w !! LibEdit.file_name path) = true ->
  exists w1,
    Shim.le_write_history path w = Done 0%Z w1 /\
    forall w2, fs w2 = fs w1 -> history w2 = [] ->
      exists w3,
        Shim.le_read_history path w2 = Done 0%Z w3 /\
        history w3 = history w.
Proof.
  intros Hnl Hfile. unfold_shim. step_c.
  destruct (fs w !! LibEdit.file_name path) as [f|] eqn:Hf; simpl in Hfile.
  - apply andb_prop in Hfile as [Hr Hw]. rewrite Hw.
    eexists. split; [reflexivity|]. simpl.
    intros w2 Hfs Hh. rewrite Hfs, lookup_insert_eq. simpl. rewrite Hr.
    eexists. split; [reflexivity|]. simpl.
    rewrite Hh. simpl. apply read_lines_history_lines, Hnl.
  - eexists. split; [reflexivity|]. simpl.
    intros w2 Hfs Hh. rewrite Hfs, lookup_insert_eq. simpl.
    eexists. split; [reflexivity|]. simpl.
    rewrite Hh. simpl. apply read_lines_history_lines, Hnl.
Qed.

Lemma history_save_load_roundtrip_witness :
  exists w1,
    Shim.le_write_history (Ptr "hist") (set_history ["ls -l"; "cd .."] world0)
      = Done 0%Z w1 /\
    forall w2, fs w2 = fs w1 -> history w2 = [] ->
      exists w3,
        Shim.le_read_history (Ptr "hist") w2 = Done 0%Z w3 /\
        history w3 = history (set_history ["ls -l"; "cd .."] world0).
Proof.
  apply (history_save_load_roundtrip (Ptr "hist") (set_history ["ls -l"; "cd .."] world0));
    reflexivity.
Defined.

(** A session: add two lines, save, clear, load. *)
Example save_clear_load :
  exists w',
    (Shim.le_add_history (Ptr "ls -l") ;;
     Shim.le_add_history (Ptr "cd ..") ;;
     Shim.le_write_history (Ptr "hist") ;;
     Shim.le_clear_history ;;
     Shim.le_read_history (Ptr "hist")) world0 = Done 0%Z w' /\
    history w' = ["ls -l"; "cd .."].
Proof. eexists. split; vm_compute; reflexivity. Qed.

(** ** The two copies of the shim *)

(** C10: every function defined by both [libedit_shim.c] and
    [include/libedit_shim.c] behaves the same in the two copies, on every
    argument and in every world.  ([le_ding] is defined by the former only.) *)
Theorem shim_copies_agree :
  (forall prompt w, Shim.le_readline prompt w = IncludeShim.le_readline prompt w) /\
  (forall line w, Shim.le_add_history line w = IncludeShim.le_add_history line w) /\
  (forall path w, Shim.le_read_history path w = IncludeShim.le_read_history path w) /\
  (forall path w, Shim.le_write_history path w = IncludeShim.le_write_history path w) /\
  (forall w, Shim.le_clear_history w = IncludeShim.le_clear_history w) /\
  (forall w, Shim.le_initialize w = IncludeShim.le_initialize w) /\
  (forall g w, Shim.le_set_completion g w = IncludeShim.le_set_completion g w) /\
  (forall text state w,
     Shim.le_generator_trampoline text state w =
     IncludeShim.le_generator_trampoline text state w) /\
  (forall fuel text start end_ w,
     Shim.attempted_completion fuel text start end_ w =
     IncludeShim.attempted_completion fuel text start end_ w).
Proof.
  repeat split; intros; try reflexivity.
Qed.

(** ** Completion *)

Lemma trampoline_registered (g : le_generator_t) (text : cptr) (state : Z) (w : world) :
  s_generator w = Some g ->
  Shim.le_generator_trampoline text state w =
    Done (g text state) (set_gen_calls (gen_calls w ++ [(text, state)]) w).
Proof.
  intros Hg. unfold Shim.le_generator_trampoline. rewrite Hg. reflexivity.
Qed.

Lemma trampoline_unregistered (text : cptr) (state : Z) (w : world) :
  s_generator w = None ->
  Shim.le_generator_trampoline text state w = Done NULL w.
Proof.
  intros Hg. unfold Shim.le_generator_trampoline. rewrite Hg. reflexivity.
Qed.

Lemma map_seq_succ {A} (f : nat -> A) (n : nat) :
  map f (seq 1 n) = map (fun i => f (S i)) (seq 0 n).
Proof. rewrite <- seq_shift, map_map. reflexivity. Qed.

(** The loop of [rl_completion_matches] over the trampoline: when the
    generator's first NULL from [state] on is [n] calls ahead, the loop calls
    it at [state], [state + 1], ..., [state + n] and stops. *)
Lemma collect_matches_calls (g : le_generator_t) (text : cptr) (n : nat) :
  forall fuel state acc w,
    s_generator w = Some g ->
    (forall i, (i < n)%nat -> g text (state + Z.of_nat i)%Z <> NULL) ->
    g text (state + Z.of_nat n)%Z = NULL ->
    (n < fuel)%nat ->
    LibEdit.collect_matches fuel text Shim.le_generator_trampoline state acc w =
      Done (acc ++ strings_of (map (fun i => g text (state + Z.of_nat i)%Z) (seq 0 n)))
           (set_gen_calls
              (gen_calls w ++ map (fun i => (text, (state + Z.of_nat i)%Z)) (seq 0 (S n)))
              w).
Proof.
  induction n as [|n IH]; intros fuel state acc w Hg Hsome Hnull Hfuel;
    (destruct fuel as [|fuel]; [lia|]).
  - simpl. unfold bind. rewrite (trampoline_registered g) by exact Hg.
    replace (state + Z.of_nat 0)%Z with state in * by lia.
    rewrite Hnull. unfold ret, strings_of. simpl. rewrite app_nil_r. reflexivity.
  - cbn [LibEdit.collect_matches]. unfold bind.
    rewrite (trampoline_registered g) by exact Hg.
    pose proof (Hsome 0%nat ltac:(lia)) as H0.
    replace (state + Z.of_nat 0)%Z with state in H0 by lia.
    destruct (g text state) as [|m] eqn:Hm; [congruence|].
    rewrite IH; [ | exact Hg | | | lia].
    + f_equal.
      * rewrite <- app_assoc. f_equal.
        cbn [seq map]. rewrite map_seq_succ.
        replace (state + Z.of_nat 0)%Z with state by lia. rewrite Hm.
        unfold strings_of. cbn [omap]. simpl. f_equal. f_equal.
        apply map_ext. intros i. f_equal. lia.
      * unfold set_gen_calls. simpl. f_equal.
        rewrite <- app_assoc. f_equal.
        rewrite <- (seq_shift n 1), map_map.
        apply (f_equal2 cons); [f_equal; lia|].
        apply (f_equal2 cons); [f_equal; lia|].
        apply map_ext. intros i. f_equal. lia.
    + intros i Hi. replace (state + 1 + Z.of_nat i)%Z with (state + Z.of_nat (S i))%Z by lia.
      apply Hsome. lia.
    + replace (state + 1 + Z.of_nat n)%Z with (state + Z.of_nat (S n))%Z by lia.
      exact Hnull.
Qed.

Lemma forallb_seq_nonnull (g : le_generator_t) (text : cptr) (n : nat) :
  forallb (fun i => nonnull (g text (Z.of_nat i))) (seq 0 n) = true ->
  forall i, (i < n)%nat -> g text (0 + Z.of_nat i)%Z <> NULL.
Proof.
  intros Hall i Hi Hnull.
  rewrite forallb_forall in Hall.
  specialize (Hall i). rewrite in_seq in Hall.
  rewrite Z.add_0_l in Hnull. rewrite Hnull in Hall.
  specialize (Hall ltac:(lia)). discriminate Hall.
Qed.

(** C5: in one completion cycle the registered generator is called with
    state 0, 1, 2, ..., each call one more than the last, up to and including
    the first call that returns NULL (the [n]-th), and not again: the calls
    of the cycle are exactly [text, 0] ... [text, n]. *)
Theorem generator_called_with_increasing_state
    (g : le_generator_t) (text : cptr) (n fuel : nat) (start end_ : Z) (w : world) :
  s_generator w = Some g ->
  forallb (fun i => nonnull (g text (Z.of_nat i))) (seq 0 n) = true ->
  g text (Z.of_nat n) = NULL ->
  (n < fuel)%nat ->
  exists r w',
    Shim.attempted_completion fuel text start end_ w = Done r w' /\
    gen_calls w' = gen_calls w ++ calls_upto text (S n).
Proof.
  intros Hg Hsome Hnull Hfuel.
  unfold Shim.attempted_completion. rewrite Hg.
  unfold LibEdit.rl_completion_matches, bind.
  rewrite (collect_matches_calls g text n);
    [ | exact Hg | apply forallb_seq_nonnull, Hsome | exact Hnull | exact Hfuel ].
  destruct ([] ++ strings_of _) as [|m ms]; unfold ret;
    eexists; eexists; (split; [reflexivity|]); reflexivity.
Qed.

Lemma generator_called_with_increasing_state_witness :
  exists r w',
    Shim.attempted_completion 10 (Ptr "ca") 0 2
      (set_s_generator (Some gen_three) world0) = Done r w' /\
    gen_calls w' =
      gen_calls (set_s_generator (Some gen_three) world0) ++ calls_upto (Ptr "ca") 4.
Proof.
  apply (generator_called_with_increasing_state gen_three (Ptr "ca") 3 10 0 2);
    [reflexivity | reflexivity | reflexivity | lia].
Defined.

(** Three candidates: four calls, and the match list libedit builds. *)
Example completion_three_candidates :
  exists w',
    Shim.attempted_completion 10 (Ptr "ca") 0 2
      (set_s_generator (Some gen_three) world0)
      = Done (Some ["ca"; "cat"; "car"; "cap"]) w' /\
    gen_calls w' = [(Ptr "ca", 0%Z); (Ptr "ca", 1%Z); (Ptr "ca", 2%Z); (Ptr "ca", 3%Z)].
Proof. eexists. split; vm_compute; reflexivity. Qed.

(** C7, as stated, fails: with a generator that yields no candidate
    [attempted_completion] returns without a BEL byte reaching the terminal;
    the shim rings no bell. *)
Lemma attempted_completion_rings_no_bell :
  ~ exists r w',
      Shim.attempted_completion 1 (Ptr "ca") 0 2
        (set_s_generator (Some gen_none) world0) = Done r w' /\
      bell_rung (set_s_generator (Some gen_none) world0) w'.
Proof.
  intros (r & w' & Hrun & Hbell).
  vm_compute in Hrun. injection Hrun as _ <-.
  vm_compute in Hbell. discriminate Hbell.
Qed.

(** C7, amended: when the generator yields zero candidates,
    [attempted_completion] itself returns NULL (no match list) after the one
    call at state 0, rings no bell and leaves the line buffer, the terminal
    and all other state as they were, the trace of generator calls apart.
    It does not stop libedit there: on the NULL the completion key goes on to
    libedit's default completion, which is outside the shim. *)
Theorem attempted_completion_no_candidates
    (g : le_generator_t) (text : cptr) (fuel : nat) (start end_ : Z) (w : world) :
  s_generator w = Some g ->
  rl_attempted_completion_function w = Some fn_attempted_completion ->
  g text 0%Z = NULL ->
  (0 < fuel)%nat ->
  exists w',
    Shim.attempted_completion fuel text start end_ w = Done None w' /\
    w' = set_gen_calls (gen_calls w ++ [(text, 0%Z)]) w /\
    rl_line_buffer w' = rl_line_buffer w /\
    term_out w' = term_out w /\
    completion_key fuel text start end_ w = Done DefaultCompletion w'.
Proof.
  intros Hg Hhook Hnull Hfuel.
  assert (Hrun : Shim.attempted_completion fuel text start end_ w =
                 Done None (set_gen_calls (gen_calls w ++ [(text, 0%Z)]) w)).
  { unfold Shim.attempted_completion. rewrite Hg.
    unfold LibEdit.rl_completion_matches, bind.
    rewrite (collect_matches_calls g text 0);
      [ | exact Hg | intros i Hi; lia | exact Hnull | exact Hfuel ].
    reflexivity. }
  eexists. split; [exact Hrun|]. split; [reflexivity|].
  split; [reflexivity|]. split; [reflexivity|].
  unfold completion_key, bind, call_completion_hook.
  rewrite Hhook, Hrun. reflexivity.
Qed.

Lemma attempted_completion_no_candidates_witness :
  exists w',
    Shim.attempted_completion 1 (Ptr "ca") 0 2
      (set_rl_attempted_completion_function (Some fn_attempted_completion)
         (set_s_generator (Some gen_none) world0)) = Done None w' /\
    w' = set_gen_calls
           (gen_calls
              (set_rl_attempted_completion_function (Some fn_attempted_completion)
                 (set_s_generator (Some gen_none) world0))
            ++ [(Ptr "ca", 0%Z)])
           (set_rl_attempted_completion_function (Some fn_attempted_completion)
              (set_s_generator (Some gen_none) world0)) /\
    rl_line_buffer w' =
      rl_line_buffer
        (set_rl_attempted_completion_function (Some fn_attempted_completion)
           (set_s_generator (Some gen_none) world0)) /\
    term_out w' =
      term_out
        (set_rl_attempted_completion_function (Some fn_attempted_completion)
           (set_s_generator (Some gen_none) world0)) /\
    completion_key 1 (Ptr "ca") 0 2
      (set_rl_attempted_completion_function (Some fn_attempted_completion)
         (set_s_generator (Some gen_none) world0)) = Done DefaultCompletion w'.
Proof.
  apply (attempted_completion_no_candidates gen_none (Ptr "ca") 1 0 2);
    [reflexivity | reflexivity | reflexivity | lia].
Defined.

(** ** The generator slot *)

(** Under a registered generator the trampoline is that generator: the
    library's loop over the trampoline is its loop over [g]. *)
Lemma collect_matches_forwards (g : le_generator_t) (text : cptr) (fuel : nat) :
  forall state acc w,
    s_generator w = Some g ->
    LibEdit.collect_matches fuel text Shim.le_generator_trampoline state acc w =
    LibEdit.collect_matches fuel text (call_generator g) state acc w.
Proof.
  induction fuel as [|fuel IH]; intros state acc w Hg; [reflexivity|].
  cbn [LibEdit.collect_matches]. unfold bind.
  rewrite (trampoline_registered g) by exact Hg.
  unfold call_generator, bind, modify, ret.
  destruct (g text state) as [|m]; [reflexivity|].
  apply IH. exact Hg.
Qed.

(** The library's loop changes nothing but the trace of generator calls. *)
Lemma collect_matches_frame (text : cptr) (fuel : nat) :
  forall state acc w ms w',
    LibEdit.collect_matches fuel text Shim.le_generator_trampoline state acc w
      = Done ms w' ->
    w' = set_gen_calls (gen_calls w') w.
Proof.
  induction fuel as [|fuel IH]; intros state acc w ms w' Hrun; [discriminate Hrun|].
  cbn [LibEdit.collect_matches] in Hrun. unfold bind in Hrun.
  unfold Shim.le_generator_trampoline in Hrun.
  destruct (s_generator w) as [g|] eqn:Hg.
  - unfold call_generator, bind, modify, ret in Hrun.
    destruct (g text state) as [|m].
    + injection Hrun as _ <-. reflexivity.
    + apply IH in Hrun. rewrite Hrun. reflexivity.
  - injection Hrun as _ <-. destruct w; reflexivity.
Qed.

Lemma attempted_completion_frame
    (fuel : nat) (text : cptr) (start end_ : Z) (w : world) r w' :
  Shim.attempted_completion fuel text start end_ w = Done r w' ->
  w' = set_gen_calls (gen_calls w') w.
Proof.
  unfold Shim.attempted_completion.
  destruct (s_generator w) as [g|] eqn:Hg.
  - unfold LibEdit.rl_completion_matches, bind.
    destruct (LibEdit.collect_matches _ _ _ _ _ _) as [ms w1| |] eqn:Hc;
      try discriminate.
    apply collect_matches_frame in Hc.
    destruct ms; unfold ret; intros H; injection H as _ <-; exact Hc.
  - intros H. injection H as _ <-. destruct w; reflexivity.
Qed.

(** What one call does to the slot and to libedit's hook: only
    [le_set_completion] writes either. *)
Lemma exec_slot (c : api_call) (w w' : world) :
  exec c w = Done tt w' ->
  s_generator w' = registered [c] (s_generator w) /\
  rl_attempted_completion_function w' =
    match c with
    | call_set_completion _ => Some fn_attempted_completion
    | _ => rl_attempted_completion_function w
    end.
Proof.
  destruct c as [prompt|line|path|path| | | |g|fuel text start end_];
    unfold exec; unfold_shim; unfold bind, ret, modify; cbn [registered].
  - destruct prompt; simpl; destruct (tty_in w) as [|[l|] rest];
      intros H; injection H as <-; split; reflexivity.
  - destruct line as [|[|c s]]; simpl; try destruct (nonzero c);
      intros H; injection H as <-; split; reflexivity.
  - simpl. destruct (fs w !! LibEdit.file_name path) as [f|];
      [destruct (f_readable f)|]; intros H; injection H as <-; split; reflexivity.
  - simpl. destruct (fs w !! LibEdit.file_name path) as [f|];
      [destruct (f_writable f)|]; intros H; injection H as <-; split; reflexivity.
  - intros H; injection H as <-; split; reflexivity.
  - intros H; injection H as <-; split; reflexivity.
  - simpl. destruct (stdout_err w) eqn:He; simpl; rewrite ?He;
      intros H; injection H as <-; split; reflexivity.
  - intros H; injection H as <-; split; reflexivity.
  - unfold call_completion_hook.
    destruct (rl_attempted_completion_function w) as [[]|] eqn:Hh.
    + destruct (Shim.attempted_completion fuel text start end_ w) as [r w1| |] eqn:Ha;
        try discriminate.
      intros H; injection H as <-.
      apply attempted_completion_frame in Ha. rewrite Ha. simpl.
      split; [reflexivity | exact Hh].
    + intros H; injection H as <-; split; [reflexivity | exact Hh].
Qed.

Lemma exec_hook_installed (c : api_call) (w w' : world) :
  hook_installed w = true ->
  exec c w = Done tt w' ->
  hook_installed w' = true.
Proof.
  intros Hinv Hc. apply exec_slot in Hc as [Hs Hh].
  unfold hook_installed in *. rewrite Hs, Hh.
  destruct c; cbn [registered]; try exact Hinv.
  destruct generator; reflexivity.
Qed.

Lemma run_slot (cs : list api_call) :
  forall w w',
    hook_installed w = true ->
    run cs w = Done tt w' ->
    s_generator w' = registered cs (s_generator w) /\ hook_installed w' = true.
Proof.
  induction cs as [|c cs IH]; intros w w' Hinv Hrun.
  - injection Hrun as <-. split; [reflexivity | exact Hinv].
  - cbn [run] in Hrun. unfold bind in Hrun.
    destruct (exec c w) as [[] w1| |] eqn:Hc; try discriminate.
    pose proof (exec_hook_installed c w w1 Hinv Hc) as Hinv1.
    apply exec_slot in Hc as [Hs _].
    destruct (IH w1 w' Hinv1 Hrun) as [Hs' Hinv'].
    split; [|exact Hinv'].
    rewrite Hs', Hs. destruct c; reflexivity.
Qed.

(** With the hook installed, a completion attempt by libedit is a call of the
    shim's [attempted_completion]. *)
Lemma call_completion_hook_forwards
    (fuel : nat) (text : cptr) (start end_ : Z) (w : world) :
  hook_installed w = true ->
  call_completion_hook fuel text start end_ w =
  Shim.attempted_completion fuel text start end_ w.
Proof.
  unfold hook_installed, call_completion_hook, Shim.attempted_completion.
  destruct (rl_attempted_completion_function w) as [[]|]; [reflexivity|].
  destruct (s_generator w); [discriminate | reflexivity].
Qed.

(** C6: there is one generator slot for the whole process.  After any
    sequence of calls into the shim (and of completion attempts by libedit),
    the slot holds the generator of the most recent [le_set_completion],
    whatever was registered before; every completion attempt is a call of
    [attempted_completion], which hands libedit's match builder that
    generator, reached through the trampoline; and with no generator in the
    slot the completion functions return NULL. *)
Theorem generator_slot (cs : list api_call) (w w' : world) :
  hook_installed w = true ->
  run cs w = Done tt w' ->
  s_generator w' = registered cs (s_generator w) /\
  (forall fuel text start end_,
     call_completion_hook fuel text start end_ w' =
     Shim.attempted_completion fuel text start end_ w') /\
  match registered cs (s_generator w) with
  | Some g =>
      (forall text state, exists w'',
         Shim.le_generator_trampoline text state w' = Done (g text state) w'') /\
      (forall fuel text start end_,
         Shim.attempted_completion fuel text start end_ w' =
         LibEdit.rl_completion_matches fuel text (call_generator g) w')
  | None =>
      (forall text state, Shim.le_generator_trampoline text state w' = Done NULL w') /\
      (forall fuel text start end_,
         Shim.attempted_completion fuel text start end_ w' = Done None w')
  end.
Proof.
  intros Hinv Hrun. destruct (run_slot cs w w' Hinv Hrun) as [Hslot Hinv'].
  split; [exact Hslot|]. split.
  { intros fuel text start end_. apply call_completion_hook_forwards, Hinv'. }
  destruct (registered cs (s_generator w)) as [g|]; split.
  - intros text state. eexists. apply trampoline_registered, Hslot.
  - intros fuel text start end_.
    unfold Shim.attempted_completion. rewrite Hslot.
    unfold LibEdit.rl_completion_matches, bind.
    rewrite (collect_matches_forwards g) by exact Hslot. reflexivity.
  - intros text state. apply trampoline_unregistered, Hslot.
  - intros fuel text start end_.
    unfold Shim.attempted_completion. rewrite Hslot. reflexivity.
Qed.

Lemma generator_slot_witness :
  exists w',
    run session_two_registrations world0 = Done tt w' /\
    s_generator w' = registered session_two_registrations (s_generator world0) /\
    (forall fuel text start end_,
       call_completion_hook fuel text start end_ w' =
       Shim.attempted_completion fuel text start end_ w') /\
    match registered session_two_registrations (s_generator world0) with
    | Some g =>
        (forall text state, exists w'',
           Shim.le_generator_trampoline text state w' = Done (g text state) w'') /\
        (forall fuel text start end_,
           Shim.attempted_completion fuel text start end_ w' =
           LibEdit.rl_completion_matches fuel text (call_generator g) w')
    | None =>
        (forall text state, Shim.le_generator_trampoline text state w' = Done NULL w') /\
        (forall fuel text start end_,
           Shim.attempted_completion fuel text start end_ w' = Done None w')
    end.
Proof.
  eexists. split; [vm_compute; reflexivity|].
  apply (generator_slot session_two_registrations world0);
    [reflexivity | vm_compute; reflexivity].
Defined.

(** * Further properties of the shim *)

(** ** Adding lines *)

Lemma le_add_history_kept (p : cptr) (w : world) :
  Shim.le_add_history p w =
    Done tt (match kept_line p with
             | Some s => set_history (history w ++ [s]) (set_rl_initialized true w)
             | None => w
             end).
Proof.
  destruct p as [|[|c s]]; try reflexivity.
  unfold kept_line. unfold_shim. step_c. destruct (nonzero c); reflexivity.
Qed.

(** X1: a run of [le_add_history] calls, on any pointers, never crashes and
    leaves the history extended by exactly the lines that are neither NULL nor
    empty, in call order; NULL and empty lines leave no trace. *)
Theorem le_add_history_sequence (ps : list cptr) :
  forall w, exists w',
    run (map call_add_history ps) w = Done tt w' /\
    history w' = history w ++ omap kept_line ps.
Proof.
  induction ps as [|p ps IH]; intros w.
  - exists w. split; [reflexivity|]. simpl. rewrite app_nil_r. reflexivity.
  - cbn [map run exec]. unfold bind. rewrite le_add_history_kept.
    destruct (kept_line p) as [s|] eqn:Hk.
    + destruct (IH (set_history (history w ++ [s]) (set_rl_initialized true w)))
        as (w' & Hrun & Hh).
      exists w'. split; [exact Hrun|]. rewrite Hh. simpl. rewrite Hk.
      rewrite <- app_assoc. reflexivity.
    + destruct (IH w) as (w' & Hrun & Hh).
      exists w'. split; [exact Hrun|]. rewrite Hh. simpl. rewrite Hk.
      reflexivity.
Qed.

(** X2: the read loop body [le_add_history(le_readline(prompt))] is safe at
    end of input: the NULL from [le_readline] passes the guard of
    [le_add_history] untouched.  The line read is returned, and the history
    grows by that line when one was submitted and it is not empty, and not at
    all otherwise; [le_readline] alone never adds to the history. *)
Theorem read_and_remember_result (prompt : cptr) (w : world) :
  exists r w1 w',
    Shim.le_readline prompt w = Done r w1 /\
    history w1 = history w /\
    read_and_remember prompt w = Done r w' /\
    decode_result r = next_input w /\
    history w' = history w ++ omap kept_line [r].
Proof.
  unfold read_and_remember, next_input, bind.
  assert (Hrl : exists r w1, Shim.le_readline prompt w = Done r w1 /\
                  history w1 = history w /\
                  decode_result r = match tty_in w with
                                    | Some l :: _ => Submitted l
                                    | _ => EndOfInput
                                    end).
  { unfold_shim. step_c.
    destruct prompt as [|p]; simpl;
      destruct (tty_in w) as [|[l|] rest] eqn:Hin; simpl; rewrite ?Hin;
      eexists; eexists; (split; [reflexivity|]); split; reflexivity. }
  destruct Hrl as (r & w1 & Hrun & Hh & Hdec).
  exists r, w1. rewrite Hrun, le_add_history_kept.
  eexists. split; [reflexivity|]. split; [exact Hh|].
  split; [reflexivity|]. split; [exact Hdec|].
  destruct (kept_line r) as [s|] eqn:Hk; simpl; rewrite Hk, Hh.
  - reflexivity.
  - rewrite app_nil_r. reflexivity.
Qed.

(** ** Null safety of the whole interface *)

Lemma collect_matches_no_crash (text : cptr) (fuel : nat) :
  forall state acc w,
    LibEdit.collect_matches fuel text Shim.le_generator_trampoline state acc w
      <> Crash.
Proof.
  induction fuel as [|fuel IH]; intros state acc w; [discriminate|].
  cbn [LibEdit.collect_matches]. unfold bind, Shim.le_generator_trampoline.
  destruct (s_generator w) as [g|]; [|discriminate].
  unfold call_generator, bind, modify, ret.
  destruct (g text state) as [|m]; [discriminate | apply IH].
Qed.

Lemma attempted_completion_no_crash
    (fuel : nat) (text : cptr) (start end_ : Z) (w : world) :
  Shim.attempted_completion fuel text start end_ w <> Crash.
Proof.
  unfold Shim.attempted_completion.
  destruct (s_generator w) as [g|]; [|discriminate].
  unfold LibEdit.rl_completion_matches, bind.
  pose proof (collect_matches_no_crash text fuel 0%Z [] w) as Hc.
  destruct (LibEdit.collect_matches _ _ _ _ _ _) as [ms w1| |];
    [destruct ms; discriminate | congruence | discriminate].
Qed.

Lemma exec_no_crash (c : api_call) (w : world) : exec c w <> Crash.
Proof.
  destruct c as [prompt|line|path|path| | | |g|fuel text start end_];
    unfold exec.
  - unfold_shim. step_c. destruct prompt; simpl;
      destruct (tty_in w) as [|[l|] rest]; discriminate.
  - rewrite le_add_history_kept. discriminate.
  - unfold_shim. step_c. destruct (fs w !! LibEdit.file_name path) as [f|];
      [destruct (f_readable f)|]; discriminate.
  - unfold_shim. step_c. destruct (fs w !! LibEdit.file_name path) as [f|];
      [destruct (f_writable f)|]; discriminate.
  - discriminate.
  - discriminate.
  - unfold_shim. step_c. destruct (stdout_err w) eqn:He; simpl; rewrite ?He;
      discriminate.
  - discriminate.
  - unfold bind, call_completion_hook.
    destruct (rl_attempted_completion_function w) as [[]|]; [|discriminate].
    pose proof (attempted_completion_no_crash fuel text start end_ w) as Hc.
    destruct (Shim.attempted_completion fuel text start end_ w);
      [discriminate | congruence | discriminate].
Qed.

(** X3: no sequence of calls into the shim crashes the process, whatever the
    arguments (NULL prompts, lines and paths included), the generators
    registered and the state it starts from: the one call that dereferences
    its argument, [le_add_history], tests it first, and the trampoline tests
    the slot before calling through it. *)
Theorem run_never_crashes (cs : list api_call) :
  forall w, run cs w <> Crash.
Proof.
  induction cs as [|c cs IH]; intros w; [discriminate|].
  cbn [run]. unfold bind.
  pose proof (exec_no_crash c w) as Hc.
  destruct (exec c w) as [[] w1| |]; [apply IH | congruence | discriminate].
Qed.

(** ** Registering and unregistering *)

(** X4: [le_set_completion(NULL)] empties the slot but leaves libedit's hook
    on the shim: from any state, and whatever was registered before, the next
    completion attempt reaches [attempted_completion], which answers NULL
    without a call to any generator and without changing anything, and the
    trampoline answers NULL likewise. *)
Theorem le_set_completion_null_unregisters
    (w : world) (fuel : nat) (text : cptr) (start end_ : Z) :
  exists w1,
    Shim.le_set_completion None w = Done tt w1 /\
    rl_attempted_completion_function w1 = Some fn_attempted_completion /\
    call_completion_hook fuel text start end_ w1 = Done None w1 /\
    forall state, Shim.le_generator_trampoline text state w1 = Done NULL w1.
Proof.
  eexists. split; [reflexivity|]. split; [reflexivity|]. split; [reflexivity|].
  intros state. reflexivity.
Qed.

(** X5: registering a generator is independent of the calls that have no
    part in completion: [le_set_completion] before or after
    [le_add_history], [le_read_history], [le_write_history],
    [le_clear_history], [le_initialize] or [le_ding] gives the same result
    and the same state.  ([le_readline] is not among them: while it reads,
    libedit answers the completion key through the hook.) *)
Theorem le_set_completion_commutes
    (g : option le_generator_t) (c : api_call) (w : world) :
  plain_call c = true ->
  (Shim.le_set_completion g ;; exec c) w = (exec c ;; Shim.le_set_completion g) w.
Proof.
  destruct c as [prompt|line|path|path| | | |g'|fuel text start end_];
    intros Hc; try discriminate Hc; unfold exec.
  - unfold Shim.le_set_completion, bind, modify. cbv beta iota.
    rewrite !le_add_history_kept.
    destruct (kept_line line); reflexivity.
  - unfold_shim. step_c. destruct (fs w !! LibEdit.file_name path) as [f|];
      [destruct (f_readable f)|]; reflexivity.
  - unfold_shim. step_c. destruct (fs w !! LibEdit.file_name path) as [f|];
      [destruct (f_writable f)|]; reflexivity.
  - reflexivity.
  - reflexivity.
  - unfold_shim. step_c. destruct (stdout_err w) eqn:He; simpl; rewrite ?He;
      reflexivity.
Qed.

Lemma le_set_completion_commutes_witness :
  (Shim.le_set_completion (Some gen_three) ;; exec (call_add_history (Ptr "ls"))) world0
  = (exec (call_add_history (Ptr "ls")) ;; Shim.le_set_completion (Some gen_three)) world0.
Proof.
  apply (le_set_completion_commutes (Some gen_three) (call_add_history (Ptr "ls")) world0).
  reflexivity.
Defined.

(** ** What a completion attempt does *)

(** A completion attempt that returns found the generator's first NULL
    within its fuel. *)
Lemma collect_matches_inv (g : le_generator_t) (text : cptr) (fuel : nat) :
  forall state acc w ms w',
    s_generator w = Some g ->
    LibEdit.collect_matches fuel text Shim.le_generator_trampoline state acc w
      = Done ms w' ->
    exists n,
      (n < fuel)%nat /\
      (forall i, (i < n)%nat -> g text (state + Z.of_nat i)%Z <> NULL) /\
      g text (state + Z.of_nat n)%Z = NULL.
Proof.
  induction fuel as [|fuel IH]; intros state acc w ms w' Hg Hrun;
    [discriminate Hrun|].
  cbn [LibEdit.collect_matches] in Hrun. unfold bind in Hrun.
  rewrite (trampoline_registered g) in Hrun by exact Hg.
  destruct (g text state) as [|m] eqn:Hm.
  - exists 0%nat. split; [lia|]. split; [intros i Hi; lia|].
    replace (state + Z.of_nat 0)%Z with state by lia. exact Hm.
  - apply IH in Hrun; [|exact Hg].
    destruct Hrun as (n & Hn & Hsome & Hnull).
    exists (S n). split; [lia|]. split.
    + intros [|i] Hi.
      * replace (state + Z.of_nat 0)%Z with state by lia. congruence.
      * replace (state + Z.of_nat (S i))%Z with (state + 1 + Z.of_nat i)%Z by lia.
        apply Hsome. lia.
    + replace (state + Z.of_nat (S n))%Z with (state + 1 + Z.of_nat n)%Z by lia.
      exact Hnull.
Qed.

Lemma nonnull_forallb_seq (g : le_generator_t) (text : cptr) (n : nat) :
  (forall i, (i < n)%nat -> g text (0 + Z.of_nat i)%Z <> NULL) ->
  forallb (fun i => nonnull (g text (Z.of_nat i))) (seq 0 n) = true.
Proof.
  intros H. apply forallb_forall. intros i Hi. apply in_seq in Hi.
  specialize (H i ltac:(lia)). rewrite Z.add_0_l in H.
  destruct (g text (Z.of_nat i)); [congruence | reflexivity].
Qed.

(** A completion attempt under [g] whose first NULL is at state [n]: the
    calls it makes, and whether its result is NULL. *)
Lemma attempted_completion_run
    (g : le_generator_t) (n fuel : nat) (text : cptr) (start end_ : Z) (w : world) :
  s_generator w = Some g ->
  (forall i, (i < n)%nat -> g text (0 + Z.of_nat i)%Z <> NULL) ->
  g text (0 + Z.of_nat n)%Z = NULL ->
  (n < fuel)%nat ->
  exists r,
    Shim.attempted_completion fuel text start end_ w =
      Done r (set_gen_calls (gen_calls w ++ calls_upto text (S n)) w) /\
    (r = None <-> n = 0%nat).
Proof.
  intros Hg Hsome Hnull Hfuel.
  unfold Shim.attempted_completion. rewrite Hg.
  unfold LibEdit.rl_completion_matches, bind.
  rewrite (collect_matches_calls g text n fuel 0%Z [] w Hg Hsome Hnull Hfuel).
  simpl app. destruct n as [|n].
  - eexists. split; [reflexivity|]. split; reflexivity.
  - specialize (Hsome 0%nat ltac:(lia)).
    cbn [seq map]. change (0 + Z.of_nat 0)%Z with 0%Z in *.
    destruct (g text 0%Z) as [|m]; [congruence|].
    unfold strings_of. simpl. eexists. split; [reflexivity|].
    split; [discriminate | lia].
Qed.

(** X6: every completion attempt that returns is of one shape.  With [g] in
    the slot, [g] answered NULL for the first time at some state [n]; it was
    called at states 0 to [n] with the text unchanged, once each and in that
    order; the result is NULL exactly when [n] is 0; and nothing else in the
    process changed: history, line buffer, terminal, files, slot and hook
    are as before. *)
Theorem attempted_completion_returns
    (g : le_generator_t) (fuel : nat) (text : cptr) (start end_ : Z)
    (w : world) (r : option (list string)) (w' : world) :
  s_generator w = Some g ->
  Shim.attempted_completion fuel text start end_ w = Done r w' ->
  exists n,
    (n < fuel)%nat /\
    forallb (fun i => nonnull (g text (Z.of_nat i))) (seq 0 n) = true /\
    g text (Z.of_nat n) = NULL /\
    (r = None <-> n = 0%nat) /\
    w' = set_gen_calls (gen_calls w ++ calls_upto text (S n)) w.
Proof.
  intros Hg Hrun.
  assert (Hinv : exists n,
            (n < fuel)%nat /\
            (forall i, (i < n)%nat -> g text (0 + Z.of_nat i)%Z <> NULL) /\
            g text (0 + Z.of_nat n)%Z = NULL).
  { unfold Shim.attempted_completion in Hrun. rewrite Hg in Hrun.
    unfold LibEdit.rl_completion_matches, bind in Hrun.
    destruct (LibEdit.collect_matches _ _ _ _ _ _) as [ms w2| |] eqn:Hc;
      try discriminate Hrun.
    exact (collect_matches_inv g text fuel _ _ _ _ _ Hg Hc). }
  destruct Hinv as (n & Hn & Hsome & Hnull).
  destruct (attempted_completion_run g n fuel text start end_ w Hg Hsome Hnull Hn)
    as (r0 & Hrun0 & Hr0).
  rewrite Hrun0 in Hrun. injection Hrun as <- <-.
  exists n. split; [exact Hn|]. split; [apply nonnull_forallb_seq, Hsome|].
  split; [exact Hnull|]. split; [exact Hr0 | reflexivity].
Qed.

Lemma attempted_completion_returns_witness :
  exists r w' n,
    Shim.attempted_completion 10 (Ptr "ca") 0 2
      (set_s_generator (Some gen_three) world0) = Done r w' /\
    (n < 10)%nat /\
    forallb (fun i => nonnull (gen_three (Ptr "ca") (Z.of_nat i))) (seq 0 n) = true /\
    gen_three (Ptr "ca") (Z.of_nat n) = NULL /\
    (r = None <-> n = 0%nat) /\
    w' = set_gen_calls
           (gen_calls (set_s_generator (Some gen_three) world0)
              ++ calls_upto (Ptr "ca") (S n))
           (set_s_generator (Some gen_three) world0).
Proof.
  eexists. eexists.
  assert (Hrun : Shim.attempted_completion 10 (Ptr "ca") 0 2
                   (set_s_generator (Some gen_three) world0)
                 = Done (Some ["ca"; "cat"; "car"; "cap"])
                        (set_gen_calls (calls_upto (Ptr "ca") 4)
                           (set_s_generator (Some gen_three) world0)))
    by (vm_compute; reflexivity).
  destruct (attempted_completion_returns gen_three 10 (Ptr "ca") 0 2
              (set_s_generator (Some gen_three) world0) _ _ eq_refl Hrun)
    as (n & H).
  exists n. split; [exact Hrun | exact H].
Defined.

(** X7: [attempted_completion] answers NULL, leaving libedit without a match
    list, exactly when the slot is empty or the generator's very first answer
    (state 0) is NULL; one unit of fuel is enough to see it. *)
Theorem attempted_completion_null_iff
    (fuel : nat) (text : cptr) (start end_ : Z) (w : world) :
  (0 < fuel)%nat ->
  (exists w', Shim.attempted_completion fuel text start end_ w = Done None w') <->
  match s_generator w with
  | None => True
  | Some g => g text 0%Z = NULL
  end.
Proof.
  intros Hfuel. destruct (s_generator w) as [g|] eqn:Hg.
  - split.
    + intros (w' & Hrun).
      unfold Shim.attempted_completion in Hrun. rewrite Hg in Hrun.
      unfold LibEdit.rl_completion_matches, bind in Hrun.
      destruct (LibEdit.collect_matches _ _ _ _ _ _) as [ms w1| |] eqn:Hc;
        try discriminate Hrun.
      destruct (collect_matches_inv g text fuel _ _ _ _ _ Hg Hc)
        as (n & Hn & Hsome & Hnull).
      rewrite (collect_matches_calls g text n fuel 0%Z [] w Hg Hsome Hnull Hn) in Hc.
      injection Hc as <- <-.
      destruct n as [|n]; [exact Hnull|].
      exfalso. specialize (Hsome 0%nat ltac:(lia)).
      cbn [seq map] in Hrun.
      change (0 + Z.of_nat 0)%Z with 0%Z in Hrun, Hsome.
      destruct (g text 0%Z) as [|m]; [congruence|].
      unfold strings_of in Hrun. simpl in Hrun. discriminate Hrun.
    + intros Hnull.
      unfold Shim.attempted_completion. rewrite Hg.
      unfold LibEdit.rl_completion_matches, bind.
      rewrite (collect_matches_calls g text 0 fuel 0%Z [] w Hg);
        [ | intros i Hi; lia | exact Hnull | exact Hfuel ].
      eexists. reflexivity.
  - split; [intros _; exact I|]. intros _.
    unfold Shim.attempted_completion. rewrite Hg. eexists. reflexivity.
Qed.

Lemma attempted_completion_null_iff_witness :
  (exists w', Shim.attempted_completion 1 (Ptr "ca") 0 2
                (set_s_generator (Some gen_none) world0) = Done None w') <->
  match s_generator (set_s_generator (Some gen_none) world0) with
  | None => True
  | Some g => g (Ptr "ca") 0%Z = NULL
  end.
Proof.
  apply (attempted_completion_null_iff 1 (Ptr "ca") 0 2
           (set_s_generator (Some gen_none) world0)).
  lia.
Defined.


